(** * GraceNote drawing surface: a shallow embedding of
      src/components/Canvas.tsx

    The React component [Canvas] is modelled as a state machine over a
    [World]: the component's state hooks ([isDrawing], [color],
    [lineWidth], [isEraser]), the HTML canvas element behind [canvasRef]
    (its backing-store size, its 2D context state and its bitmap), the
    initial images loaded by runs of the mount effect whose [onload] has
    not fired yet, the sequence of [onSave] calls received by the owner,
    and the uncaught exceptions reported to the host window.

    React state updates are applied when the setter is called; every
    handler in the source reads a state hook before setting it, so this
    agrees with React's re-render between two discrete DOM events.

    Coordinates and the device pixel ratio are JavaScript numbers,
    modelled as rationals [Q]; where the component computes with them
    (the products and quotients with the device pixel ratio), the result
    is rounded to the nearest IEEE 754 double, and [None] stands for an
    infinite result.  NaN does not arise.

    The environment the handlers read when they run is a parameter of
    each step: [step win] handles one event with [window] as [win] is at
    that moment, and the [onload] of an initial image carries the
    container's client size when it fires. *)

From Stdlib Require Import String Ascii List ZArith QArith Qround Bool Lia.
From Stdlib Require Import Sorting.Sorted Sorting.Permutation Qabs.
Import ListNotations.
Open Scope string_scope.

(* ------------------------------------------------------------------ *)
(** ** The DOM and canvas objects the component uses *)

Record Point := mkPoint { pt_x : Q; pt_y : Q }.

(** The part of [getBoundingClientRect()] the component reads. *)
Record DOMRect := mkRect { rect_left : Q; rect_top : Q }.

(** One operation painted into the canvas bitmap, recorded with the
    context state it was painted with.  The bitmap is the list of such
    operations painted since it was last fully cleared; [[]] is the
    blank (transparent black) bitmap. *)
Inductive PaintOp :=
| OpStroke (path : list (list Point)) (style : string) (width : Q)
           (cap join : string) (scale : Q)
| OpClearRect (x y w h : Q) (scale : Q)
| OpDrawImage (src : string) (x y w h : Q) (scale : Q).

Definition Bitmap := list PaintOp.

(** [CanvasRenderingContext2D] state: the current transform (the
    component only ever applies [scale]), the stroke attributes and the
    current path, a list of subpaths (most recent first, each a list of
    points, most recent first). *)
Record Ctx2D := mkCtx {
  ctx_scale : Q;
  ctx_strokeStyle : string;
  ctx_lineWidth : Q;
  ctx_lineCap : string;
  ctx_lineJoin : string;
  ctx_path : list (list Point)
}.

(** The context state after creation or after a reset of the canvas
    (HTML standard defaults). *)
Definition ctx_default : Ctx2D :=
  mkCtx 1 "#000000" 1 "butt" "miter" [].

(** An [HTMLCanvasElement]: backing-store size in device pixels, the 2D
    context ([None] when [getContext('2d')] returns null), the bitmap
    and the element's on-screen rectangle. *)
Record CanvasEl := mkCanvas {
  cv_width : Z;
  cv_height : Z;
  cv_ctx : option Ctx2D;
  cv_bitmap : Bitmap;
  cv_rect : DOMRect
}.

Definition with_ctx (c : CanvasEl) (ctx : Ctx2D) : CanvasEl :=
  mkCanvas (cv_width c) (cv_height c) (Some ctx) (cv_bitmap c) (cv_rect c).

Definition with_bitmap (c : CanvasEl) (b : Bitmap) : CanvasEl :=
  mkCanvas (cv_width c) (cv_height c) (cv_ctx c) b (cv_rect c).

(** Assigning [canvas.width] / [canvas.height] resizes the backing store,
    clears the bitmap and resets the context state. *)
Definition reset_ctx (o : option Ctx2D) : option Ctx2D :=
  match o with Some _ => Some ctx_default | None => None end.

Definition set_width (c : CanvasEl) (w : Z) : CanvasEl :=
  mkCanvas w (cv_height c) (reset_ctx (cv_ctx c)) [] (cv_rect c).

Definition set_height (c : CanvasEl) (h : Z) : CanvasEl :=
  mkCanvas (cv_width c) h (reset_ctx (cv_ctx c)) [] (cv_rect c).

(** WebIDL conversion of a number to [unsigned long] (used by the
    [width] and [height] setters): truncation towards zero, modulo 2^32. *)
Definition to_unsigned_long (q : Q) : Z :=
  let t := if Qle_bool 0 q then Qfloor q else Z.opp (Qfloor (Qopp q)) in
  (t mod 2 ^ 32)%Z.

(** *** JavaScript number arithmetic (IEEE 754 binary64) *)

(** 2^k as a rational. *)
Definition pow2q (k : Z) : Q :=
  if (0 <=? k)%Z then inject_Z (2 ^ k) else 1 # Z.to_pos (2 ^ (- k)).

(** floor(log2 a), for a > 0. *)
Definition floor_log2 (a : Q) : Z :=
  let k := (Z.log2 (Qnum a) - Z.log2 (Zpos (Qden a)))%Z in
  if Qle_bool (pow2q k) a then k else (k - 1)%Z.

(** Rounding to an integer, ties to even. *)
Definition round_half_even (x : Q) : Z :=
  let f := Qfloor x in
  match Qcompare (x - inject_Z f) (1 # 2) with
  | Lt => f
  | Gt => (f + 1)%Z
  | Eq => if Z.even f then f else (f + 1)%Z
  end.

(** Rounding of an exact result to the nearest double (ties to even):
    53 significant bits, down to the subnormal exponent -1074; a result
    that rounds to 2^1024 or beyond overflows to an infinity ([None]). *)
Definition round_double (q : Q) : option Q :=
  if Qeq_bool q 0 then Some 0 else
  let a := Qabs q in
  let e := Z.max (floor_log2 a - 52) (-1074) in
  let r := inject_Z (round_half_even (a / pow2q e)) * pow2q e in
  if Qle_bool (pow2q 1024) r then None
  else Some (if Qle_bool 0 q then r else - r).

(** [a * b] and [a / b] on doubles ([b] is never 0 where [fdiv] is used). *)
Definition fmul (a b : Q) : option Q := round_double (a * b).

Definition fdiv (a b : Q) : option Q := round_double (a / b).

(** [unsigned long] conversion of a number; infinities convert to 0. *)
Definition num_to_unsigned_long (x : option Q) : Z :=
  match x with
  | Some q => to_unsigned_long q
  | None => 0%Z
  end.

(** Context methods used by the component.  [scale] multiplies the
    transformation matrix; the component only scales the identity
    matrix (the [width] setter has just reset the context), so the
    product [1 * dpr] is exact. *)
Definition ctx_scale_by (ctx : Ctx2D) (s : Q) : Ctx2D :=
  mkCtx (ctx_scale ctx * s) (ctx_strokeStyle ctx) (ctx_lineWidth ctx)
        (ctx_lineCap ctx) (ctx_lineJoin ctx) (ctx_path ctx).

Definition ctx_set_lineCap (ctx : Ctx2D) (v : string) : Ctx2D :=
  mkCtx (ctx_scale ctx) (ctx_strokeStyle ctx) (ctx_lineWidth ctx)
        v (ctx_lineJoin ctx) (ctx_path ctx).

Definition ctx_set_lineJoin (ctx : Ctx2D) (v : string) : Ctx2D :=
  mkCtx (ctx_scale ctx) (ctx_strokeStyle ctx) (ctx_lineWidth ctx)
        (ctx_lineCap ctx) v (ctx_path ctx).

Definition ctx_set_strokeStyle (ctx : Ctx2D) (v : string) : Ctx2D :=
  mkCtx (ctx_scale ctx) v (ctx_lineWidth ctx)
        (ctx_lineCap ctx) (ctx_lineJoin ctx) (ctx_path ctx).

Definition ctx_set_lineWidth (ctx : Ctx2D) (v : Q) : Ctx2D :=
  mkCtx (ctx_scale ctx) (ctx_strokeStyle ctx) v
        (ctx_lineCap ctx) (ctx_lineJoin ctx) (ctx_path ctx).

Definition ctx_beginPath (ctx : Ctx2D) : Ctx2D :=
  mkCtx (ctx_scale ctx) (ctx_strokeStyle ctx) (ctx_lineWidth ctx)
        (ctx_lineCap ctx) (ctx_lineJoin ctx) [].

Definition ctx_moveTo (ctx : Ctx2D) (p : Point) : Ctx2D :=
  mkCtx (ctx_scale ctx) (ctx_strokeStyle ctx) (ctx_lineWidth ctx)
        (ctx_lineCap ctx) (ctx_lineJoin ctx) ([p] :: ctx_path ctx).

(** [lineTo] on a path without subpaths behaves as [moveTo]. *)
Definition ctx_lineTo (ctx : Ctx2D) (p : Point) : Ctx2D :=
  let path' := match ctx_path ctx with
               | [] => [[p]]
               | sp :: rest => (p :: sp) :: rest
               end in
  mkCtx (ctx_scale ctx) (ctx_strokeStyle ctx) (ctx_lineWidth ctx)
        (ctx_lineCap ctx) (ctx_lineJoin ctx) path'.

(** [stroke()] paints the whole current path with the current stroke
    attributes and transform. *)
Definition ctx_stroke (ctx : Ctx2D) (b : Bitmap) : Bitmap :=
  app b [OpStroke (ctx_path ctx) (ctx_strokeStyle ctx) (ctx_lineWidth ctx)
                 (ctx_lineCap ctx) (ctx_lineJoin ctx) (ctx_scale ctx)].

(** [clearRect(x, y, w, h)]: a rectangle that covers the whole backing
    store (after the transform) leaves a blank bitmap; any other one is
    recorded as a clear operation on top of the bitmap. *)
Definition ctx_clearRect (ctx : Ctx2D) (W H : Z) (x y w h : Q) (b : Bitmap)
  : Bitmap :=
  let s := ctx_scale ctx in
  if Qle_bool (x * s) 0 && Qle_bool (y * s) 0
     && Qle_bool (inject_Z W) ((x + w) * s)
     && Qle_bool (inject_Z H) ((y + h) * s)
  then []
  else app b [OpClearRect x y w h s].

Definition ctx_drawImage (ctx : Ctx2D) (src : string) (x y w h : Q) (b : Bitmap)
  : Bitmap :=
  app b [OpDrawImage src x y w h (ctx_scale ctx)].

(** ** [HTMLCanvasElement.toDataURL('image/png')]

    The raster image a canvas encodes is its whole backing store; a
    canvas with no pixels encodes as ["data:,"].  The PNG/base64 bytes
    themselves are not modelled: the payload records the image header
    (width and height) and the number of painted operations. *)
Record PngImage := mkPng { png_width : Z; png_height : Z; png_pixels : Bitmap }.

Definition canvas_image (c : CanvasEl) : option PngImage :=
  if (cv_width c =? 0)%Z || (cv_height c =? 0)%Z then None
  else Some (mkPng (cv_width c) (cv_height c) (cv_bitmap c)).

Fixpoint dec_digits (fuel : nat) (n : Z) (acc : string) : string :=
  match fuel with
  | O => acc
  | S f =>
      let acc' := String (ascii_of_nat (48 + Z.to_nat (n mod 10)%Z)) acc in
      if (n / 10 =? 0)%Z then acc' else dec_digits f (n / 10)%Z acc'
  end.

Definition Z_to_dec (n : Z) : string := dec_digits 40 n "".

Definition png_base64 (img : PngImage) : string :=
  Z_to_dec (png_width img) ++ "x" ++ Z_to_dec (png_height img) ++ ";"
  ++ Z_to_dec (Z.of_nat (length (png_pixels img))).

Definition toDataURL (c : CanvasEl) : string :=
  match canvas_image c with
  | None => "data:,"
  | Some img => "data:image/png;base64," ++ png_base64 img
  end.

(* ------------------------------------------------------------------ *)
(** ** Events *)

(** [React.MouseEvent]: the fields the component reads. *)
Record MouseEv := mkMouse { m_clientX : Q; m_clientY : Q }.

(** A [Touch] of a [React.TouchEvent]'s [touches] list. *)
Record Touch := mkTouch { t_clientX : Q; t_clientY : Q }.

Record TouchEv := mkTouchEv { touches : list Touch }.

(** [React.MouseEvent | React.TouchEvent], discriminated by
    ['touches' in e]. *)
Inductive PointerEv :=
| PMouse (m : MouseEv)
| PTouch (t : TouchEv).

(** The palette swatches of the toolbar. *)
Inductive Swatch := Indigo | Red | Blue.

Definition swatch_color (s : Swatch) : string :=
  match s with
  | Indigo => "#1e1b4b"
  | Red => "#dc2626"
  | Blue => "#2563eb"
  end.

(** DOM events the component listens to: the canvas bindings, the
    toolbar buttons, and the [onload] of an initial image: [ImageLoad i
    cw ch] is the [onload] of the [i]-th image still loading (images may
    finish loading in any order), fired when the container's client size
    is [cw] x [ch]. *)
Inductive UIEvent :=
| MouseDown (m : MouseEv)
| MouseMove (m : MouseEv)
| MouseUp (m : MouseEv)
| MouseLeave (m : MouseEv)
| TouchStart (t : TouchEv)
| TouchMove (t : TouchEv)
| TouchEnd (t : TouchEv)
| ClickPencil
| ClickSwatch (s : Swatch)
| ClickEraser
| ClickClear
| ImageLoad (i : nat) (clientW clientH : Z).

(* ------------------------------------------------------------------ *)
(** ** Component state and the world it runs in *)

(** [window.devicePixelRatio] (a double) when a handler reads it. *)
Record Window := mkWindow { devicePixelRatio : Q }.

(** [window.devicePixelRatio || 1]. *)
Definition dpr_of (win : Window) : Q :=
  if Qeq_bool (devicePixelRatio win) 0 then 1 else devicePixelRatio win.

(** The state hooks of [Canvas] and the element behind [canvasRef]. *)
Record Comp := mkComp {
  canvasRef : option CanvasEl;
  isDrawing : bool;
  color : string;
  lineWidth : Q;
  isEraser : bool
}.


Inductive Exn := TypeError (msg : string).

Record World := mkWorld {
  comp : Comp;
  pending : list string;    (* [src] of each initial image not loaded yet *)
  saved : list string;      (* arguments of the [onSave] calls, in order *)
  errors : list Exn         (* exceptions escaping an event handler *)
}.

(** A small state-and-exception monad: a JavaScript handler that throws
    keeps the side effects it made before the throw. *)
Definition M (A : Type) := World -> (Exn + A) * World.

Definition ret {A} (a : A) : M A := fun w => (inr a, w).

Definition bind {A B} (m : M A) (k : A -> M B) : M B :=
  fun w => match m w with
           | (inl e, w') => (inl e, w')
           | (inr a, w') => k a w'
           end.

Notation "x <- m ;; k" := (bind m (fun x => k))
  (at level 61, m at next level, right associativity).
Notation "m ;; k" := (bind m (fun _ => k)) (at level 61, right associativity).

Definition throw {A} (e : Exn) : M A := fun w => (inl e, w).

Definition get_comp : M Comp := fun w => (inr (comp w), w).

Definition put_comp (c : Comp) : M unit :=
  fun w => (inr tt, mkWorld c (pending w) (saved w) (errors w)).

Definition modify_comp (f : Comp -> Comp) : M unit :=
  c <- get_comp ;; put_comp (f c).

Definition onSave (s : string) : M unit :=
  fun w => (inr tt, mkWorld (comp w) (pending w) (app (saved w) [s]) (errors w)).

(** State setters of the hooks. *)
Definition setIsDrawing (b : bool) : M unit :=
  modify_comp (fun c => mkComp (canvasRef c) b (color c) (lineWidth c) (isEraser c)).

Definition setColor (s : string) : M unit :=
  modify_comp (fun c => mkComp (canvasRef c) (isDrawing c) s (lineWidth c) (isEraser c)).

Definition setIsEraser (b : bool) : M unit :=
  modify_comp (fun c => mkComp (canvasRef c) (isDrawing c) (color c) (lineWidth c) b).

(** Writing back the (mutated) canvas element behind [canvasRef]. *)
Definition put_canvas (cv : CanvasEl) : M unit :=
  modify_comp (fun c => mkComp (Some cv) (isDrawing c) (color c) (lineWidth c) (isEraser c)).

(** [const ctx = canvas.getContext('2d')]. *)
Definition getContext (cv : CanvasEl) : option Ctx2D := cv_ctx cv.

Definition lift {A} (r : Exn + A) : M A := fun w => (r, w).

Definition set_pending (p : list string) : M unit :=
  fun w => (inr tt, mkWorld (comp w) p (saved w) (errors w)).

Definition get_pending : M (list string) := fun w => (inr (pending w), w).

(* ------------------------------------------------------------------ *)
(** ** The handlers of [Canvas] *)

(** [getCoordinates(e, canvas)]; reading [e.touches[0].clientX] on an
    empty [touches] list throws a [TypeError]. *)
Definition getCoordinates (e : PointerEv) (cv : CanvasEl) : Exn + Point :=
  let rect := cv_rect cv in
  match e with
  | PTouch t =>
      match touches t with
      | [] => inl (TypeError "Cannot read properties of undefined (reading 'clientX')")
      | t0 :: _ => inr (mkPoint (t_clientX t0 - rect_left rect)%Q
                                (t_clientY t0 - rect_top rect)%Q)
      end
  | PMouse m => inr (mkPoint (m_clientX m - rect_left rect)%Q
                             (m_clientY m - rect_top rect)%Q)
  end.

Definition startDrawing (readOnly : bool) (e : PointerEv) : M unit :=
  if readOnly then ret tt else
  c <- get_comp ;;
  match canvasRef c with
  | None => ret tt
  | Some cv =>
      match getContext cv with
      | None => ret tt
      | Some ctx =>
          setIsDrawing true ;;
          p <- lift (getCoordinates e cv) ;;
          let ctx1 := ctx_moveTo (ctx_beginPath ctx) p in
          let ctx2 := ctx_set_strokeStyle ctx1
                        (if isEraser c then "#ffffff" else color c) in
          let ctx3 := ctx_set_lineWidth ctx2
                        (if isEraser c then 20%Q else lineWidth c) in
          put_canvas (with_ctx cv ctx3)
      end
  end.

Definition draw (readOnly : bool) (e : PointerEv) : M unit :=
  c <- get_comp ;;
  if negb (isDrawing c) || readOnly then ret tt else
  match canvasRef c with
  | None => ret tt
  | Some cv =>
      match getContext cv with
      | None => ret tt
      | Some ctx =>
          p <- lift (getCoordinates e cv) ;;
          let ctx1 := ctx_lineTo ctx p in
          put_canvas (with_bitmap (with_ctx cv ctx1) (ctx_stroke ctx1 (cv_bitmap cv)))
      end
  end.

Definition stopDrawing (readOnly : bool) : M unit :=
  if readOnly then ret tt else
  setIsDrawing false ;;
  c <- get_comp ;;
  match canvasRef c with
  | Some cv => onSave (toDataURL cv)
  | None => ret tt
  end.

Definition clearCanvas (win : Window) : M unit :=
  c <- get_comp ;;
  match canvasRef c with
  | None => ret tt
  | Some cv =>
      match getContext cv with
      | None => ret tt
      | Some ctx =>
          let dpr := dpr_of win in
          match fdiv (inject_Z (cv_width cv)) dpr,
                fdiv (inject_Z (cv_height cv)) dpr with
          | Some cw, Some ch =>
              put_canvas (with_bitmap cv
                (ctx_clearRect ctx (cv_width cv) (cv_height cv) 0 0 cw ch
                   (cv_bitmap cv)))
          | _, _ => ret tt    (* clearRect ignores infinite arguments *)
          end ;;
          onSave ""
      end
  end.

(** The list without its [i]-th element. *)
Definition remove_at {A} (i : nat) (l : list A) : list A :=
  app (firstn i l) (skipn (S i) l).
Arguments remove_at : simpl never.

(** [img.onload] of the [i]-th image still loading: [ctx.drawImage(img,
    0, 0, container.clientWidth, container.clientHeight)] on the context
    the effect obtained (the canvas's own context), with the container's
    client size when it fires.  An image loads once. *)
Definition imageLoad (i : nat) (clientW clientH : Z) : M unit :=
  p <- get_pending ;;
  match nth_error p i with
  | None => ret tt
  | Some src =>
      set_pending (remove_at i p) ;;
      c <- get_comp ;;
      match canvasRef c with
      | Some cv =>
          match getContext cv with
          | Some ctx =>
              put_canvas (with_bitmap cv
                (ctx_drawImage ctx src 0 0 (inject_Z clientW) (inject_Z clientH)
                   (cv_bitmap cv)))
          | None => ret tt
          end
      | None => ret tt
      end
  end.

(** The effect on [initialImage], for a container of client size
    [clientW] x [clientH].  It runs on mount and again on any world after
    a render that changed [initialImage]; each run with a non-empty
    [initialImage] starts loading one more image. *)
Definition mount_effect (win : Window) (initialImage : option string)
    (clientW clientH : Z) : M unit :=
  c <- get_comp ;;
  match canvasRef c with
  | None => ret tt
  | Some cv0 =>
      let dpr := dpr_of win in
      let cv1 := set_width cv0 (num_to_unsigned_long (fmul (inject_Z clientW) dpr)) in
      let cv2 := set_height cv1 (num_to_unsigned_long (fmul (inject_Z clientH) dpr)) in
      put_canvas cv2 ;;
      match getContext cv2 with
      | None => ret tt
      | Some ctx =>
          let ctx1 := ctx_set_lineJoin
                        (ctx_set_lineCap (ctx_scale_by ctx dpr) "round") "round" in
          put_canvas (with_ctx cv2 ctx1) ;;
          match initialImage with
          | Some s =>
              if String.eqb s "" then ret tt
              else (p <- get_pending ;; set_pending (app p [s]))
          | None => ret tt
          end
      end
  end.

(** The JSX bindings: canvas listeners, and the toolbar, which is only
    rendered when [readOnly] is false. *)
Definition dispatch (win : Window) (readOnly : bool) (ev : UIEvent) : M unit :=
  match ev with
  | MouseDown m => startDrawing readOnly (PMouse m)
  | MouseMove m => draw readOnly (PMouse m)
  | MouseUp _ => stopDrawing readOnly
  | MouseLeave _ => stopDrawing readOnly
  | TouchStart t => startDrawing readOnly (PTouch t)
  | TouchMove t => draw readOnly (PTouch t)
  | TouchEnd _ => stopDrawing readOnly
  | ClickPencil => if readOnly then ret tt else setIsEraser false
  | ClickSwatch s =>
      if readOnly then ret tt else (setColor (swatch_color s) ;; setIsEraser false)
  | ClickEraser => if readOnly then ret tt else setIsEraser true
  | ClickClear => if readOnly then ret tt else clearCanvas win
  | ImageLoad i cw ch => imageLoad i cw ch
  end.

(** The browser's event loop: an exception escaping a handler is
    reported and the next event is still dispatched. *)
Definition step (win : Window) (readOnly : bool) (w : World) (ev : UIEvent) : World :=
  match dispatch win readOnly ev w with
  | (inl e, w') => mkWorld (comp w') (pending w') (saved w') (app (errors w') [e])
  | (inr _, w') => w'
  end.

Definition run (win : Window) (readOnly : bool) (w : World) (evs : list UIEvent) : World :=
  fold_left (step win readOnly) evs w.

(** Initial state of the hooks, and the canvas element as React creates
    it (300 x 150, default context state). *)
Definition initial_comp (cv : option CanvasEl) : Comp :=
  mkComp cv false "#1e1b4b" 3 false.

Definition fresh_canvas (ctx_ok : bool) (rect : DOMRect) : CanvasEl :=
  mkCanvas 300 150 (if ctx_ok then Some ctx_default else None) [] rect.

(** The world after the component has mounted and its effect has run. *)
Definition mounted (win : Window) (initialImage : option string)
    (clientW clientH : Z) (ctx_ok : bool) (rect : DOMRect) : World :=
  snd (mount_effect win initialImage clientW clientH
         (mkWorld (initial_comp (Some (fresh_canvas ctx_ok rect))) [] [] [])).

(* ------------------------------------------------------------------ *)
(** ** Event classes *)

Definition is_down (ev : UIEvent) : bool :=
  match ev with MouseDown _ | TouchStart _ => true | _ => false end.

Definition is_move (ev : UIEvent) : bool :=
  match ev with MouseMove _ | TouchMove _ => true | _ => false end.

(** Pointer up, pointer leave and touch end, all bound to [stopDrawing]. *)
Definition is_finalize (ev : UIEvent) : bool :=
  match ev with MouseUp _ | MouseLeave _ | TouchEnd _ => true | _ => false end.

Definition is_pointer_event (ev : UIEvent) : bool :=
  is_down ev || is_move ev || is_finalize ev.

(** A [touchstart] or [touchmove] always carries at least one touch. *)
Definition wf_event (ev : UIEvent) : bool :=
  match ev with
  | TouchStart t | TouchMove t =>
      match touches t with [] => false | _ => true end
  | _ => true
  end.

(** The world with the drawing flag lowered ([setIsDrawing(false)]). *)
Definition idle (w : World) : World :=
  let c := comp w in
  mkWorld (mkComp (canvasRef c) false (color c) (lineWidth c) (isEraser c))
          (pending w) (saved w) (errors w).

(** A painted operation is a stroke with the given colour and width. *)
Definition stroke_with (s : string) (wd : Q) (op : PaintOp) : Prop :=
  exists path cap join sc, op = OpStroke path s wd cap join sc.

(** [b'] is [b] followed by strokes of colour [s] and width [wd] only. *)
Definition strokes_since (b b' : Bitmap) (s : string) (wd : Q) : Prop :=
  exists ops, b' = app b ops /\ Forall (stroke_with s wd) ops.

(* ------------------------------------------------------------------ *)
(** ** Unfolding the handlers *)

Ltac destruct_world w :=
  let c := fresh "c" in
  let cr := fresh "cr" in
  destruct w as [c ? ? ?]; destruct c as [cr ? ? ? ?].

Ltac split_matches :=
  repeat match goal with
         | |- context [match ?x with _ => _ end] =>
             lazymatch x with
             | context [match _ with _ => _ end] => fail
             | _ => destruct x eqn:?
             end
         end.

Ltac unfold_handlers :=
  cbv [step dispatch startDrawing draw stopDrawing clearCanvas imageLoad
       bind ret get_comp put_comp modify_comp setIsDrawing setColor
       setIsEraser put_canvas lift throw onSave set_pending get_pending
       getContext getCoordinates fdiv] in *.

Lemma step_move_idle win ro w ev :
  isDrawing (comp w) = false -> is_move ev = true -> step win ro w ev = w.
Proof.
  intros Hd Hm; destruct_world w; simpl in Hd; subst.
  destruct ev; try discriminate; reflexivity.
Qed.

(** The world after one more [onSave(s)] call. *)
Definition emit (w : World) (s : string) : World :=
  mkWorld (comp w) (pending w) (app (saved w) [s]) (errors w).

Lemma step_finalize win w ev :
  is_finalize ev = true ->
  step win false w ev =
    match canvasRef (comp w) with
    | Some cv => emit (idle w) (toDataURL cv)
    | None => idle w
    end.
Proof.
  intros Hf; destruct_world w; destruct ev; try discriminate;
    destruct cr; reflexivity.
Qed.

Lemma step_saved_other win ro w ev :
  is_finalize ev = false -> ev <> ClickClear -> saved (step win ro w ev) = saved w.
Proof.
  intros Hf Hc; destruct_world w; destruct ev; try discriminate;
    try congruence; unfold_handlers;
    destruct ro; simpl; split_matches; simpl in *; try congruence;
    repeat match goal with H : (_, _) = (_, _) |- _ => inversion H; subst; clear H end;
    reflexivity.
Qed.

Lemma step_canvas_some win ro w ev cv :
  canvasRef (comp w) = Some cv ->
  exists cv', canvasRef (comp (step win ro w ev)) = Some cv'.
Proof.
  intros H; destruct_world w; simpl in H; subst.
  destruct ev; unfold_handlers;
    destruct ro; simpl; split_matches; simpl in *;
    repeat match goal with H : (_, _) = (_, _) |- _ => inversion H; subst; clear H end;
    simpl; eauto.
Qed.

Lemma step_readonly_pointer win w ev :
  is_pointer_event ev = true -> step win true w ev = w.
Proof.
  intros Hp; destruct_world w; destruct ev; try discriminate;
    unfold_handlers; simpl; try destruct isDrawing0; reflexivity.
Qed.

Lemma run_readonly_pointer win w evs :
  forallb is_pointer_event evs = true -> run win true w evs = w.
Proof.
  revert w; induction evs as [|ev evs IH]; intros w H; [reflexivity|].
  simpl in H; apply andb_prop in H as [H1 H2].
  unfold run; simpl; rewrite step_readonly_pointer by exact H1.
  apply IH; exact H2.
Qed.

Lemma forallb_firstn {A} (f : A -> bool) k l :
  forallb f l = true -> forallb f (firstn k l) = true.
Proof.
  revert l; induction k as [|k IH]; intros [|x l] H; simpl in *; auto.
  apply andb_prop in H as [H1 H2]; rewrite H1; simpl; auto.
Qed.

Lemma run_app win ro w l1 l2 :
  run win ro w (app l1 l2) = run win ro (run win ro w l1) l2.
Proof. unfold run; apply fold_left_app. Qed.

(* ------------------------------------------------------------------ *)
(** ** Claims *)

(** C7 (Coordinate Mapper): for a mouse event, or the first touch point
    of a touch event, [getCoordinates] returns
    (clientX - rect.left, clientY - rect.top); with the element's
    top-left at (50, 80) and a pointer at (120, 130) it returns (70, 50)
    for mouse and touch input alike. *)
Theorem getCoordinates_local :
  (forall m cv,
     getCoordinates (PMouse m) cv =
     inr (mkPoint (m_clientX m - rect_left (cv_rect cv))
                  (m_clientY m - rect_top (cv_rect cv)))) /\
  (forall t0 ts cv,
     getCoordinates (PTouch (mkTouchEv (t0 :: ts))) cv =
     inr (mkPoint (t_clientX t0 - rect_left (cv_rect cv))
                  (t_clientY t0 - rect_top (cv_rect cv)))) /\
  (forall W H o b ts,
     getCoordinates (PMouse (mkMouse 120 130)) (mkCanvas W H o b (mkRect 50 80))
       = inr (mkPoint 70 50) /\
     getCoordinates (PTouch (mkTouchEv (mkTouch 120 130 :: ts)))
       (mkCanvas W H o b (mkRect 50 80)) = inr (mkPoint 70 50)).
Proof.
  split; [|split].
  - reflexivity.
  - reflexivity.
  - intros; split; reflexivity.
Qed.

(** C9: a move event (mouse or touch) received while no stroke is in
    progress changes nothing: neither the canvas nor the [onSave]
    calls, nor anything else of the component. *)
Theorem move_while_idle_noop win ro w ev :
  isDrawing (comp w) = false -> is_move ev = true ->
  canvasRef (comp (step win ro w ev)) = canvasRef (comp w) /\
  saved (step win ro w ev) = saved w /\
  step win ro w ev = w.
Proof.
  intros Hd Hm; rewrite (step_move_idle win ro w ev Hd Hm); auto.
Qed.

Lemma move_while_idle_noop_witness :
  let w := mounted (mkWindow 2) None 100 50 true (mkRect 0 0) in
  canvasRef (comp (step (mkWindow 2) false w (MouseMove (mkMouse 10 10))))
    = canvasRef (comp w) /\
  saved (step (mkWindow 2) false w (MouseMove (mkMouse 10 10))) = saved w /\
  step (mkWindow 2) false w (MouseMove (mkMouse 10 10)) = w.
Proof.
  apply move_while_idle_noop; reflexivity.
Defined.

(** C4: an up, leave or touch-end event received while no stroke is in
    progress (readOnly false, canvas mounted) still calls [onSave] with
    the canvas's current encoding: [stopDrawing] does not test
    [isDrawing]. *)
Theorem finalize_while_idle_emits win w cv ev :
  canvasRef (comp w) = Some cv -> isDrawing (comp w) = false ->
  is_finalize ev = true ->
  saved (step win false w ev) = app (saved w) [toDataURL cv] /\
  comp (step win false w ev) = comp w.
Proof.
  intros Hcv Hd Hf; rewrite step_finalize by exact Hf; rewrite Hcv.
  destruct_world w; simpl in *; subst; auto.
Qed.

Lemma finalize_while_idle_emits_witness :
  let w := mounted (mkWindow 1) None 100 50 true (mkRect 0 0) in
  canvasRef (comp w) = Some (mkCanvas 100 50 (Some (mkCtx 1 "#000000" 1 "round" "round" [])) [] (mkRect 0 0)) /\
  saved (step (mkWindow 1) false w (MouseLeave (mkMouse 0 0)))
    = app (saved w) [toDataURL (mkCanvas 100 50 (Some (mkCtx 1 "#000000" 1 "round" "round" [])) [] (mkRect 0 0))] /\
  comp (step (mkWindow 1) false w (MouseLeave (mkMouse 0 0))) = comp w.
Proof.
  split; [reflexivity|].
  apply finalize_while_idle_emits; reflexivity.
Defined.

(** C8: pointer-leave is bound to the same handler as pointer-up, so the
    two events have identical effects in every state; and a down event
    followed by a leave (readOnly false, canvas mounted) ends with no
    stroke in progress and exactly one new [onSave] call carrying the
    canvas's encoding. *)
Theorem leave_ends_stroke win w cv d l :
  canvasRef (comp w) = Some cv ->
  (forall ro w0 m m', step win ro w0 (MouseLeave m) = step win ro w0 (MouseUp m')) /\
  (let w2 := step win false (step win false w (MouseDown d)) (MouseLeave l) in
   isDrawing (comp w2) = false /\
   exists cv', canvasRef (comp w2) = Some cv' /\
               saved w2 = app (saved w) [toDataURL cv']).
Proof.
  intros Hcv; split.
  - intros ro w0 m m'; reflexivity.
  - destruct (step_canvas_some win false w (MouseDown d) cv Hcv) as [cv1 H1].
    rewrite step_finalize by reflexivity; rewrite H1.
    split; [reflexivity|].
    exists cv1; split; [exact H1|].
    simpl; f_equal.
    apply step_saved_other; [reflexivity | discriminate].
Qed.

Lemma leave_ends_stroke_witness :
  let win := mkWindow 2 in
  let w := mounted win None 100 50 true (mkRect 50 80) in
  canvasRef (comp w) = Some (mkCanvas 200 100 (Some (mkCtx 2 "#000000" 1 "round" "round" [])) [] (mkRect 50 80)) /\
  ((forall ro w0 m m', step win ro w0 (MouseLeave m) = step win ro w0 (MouseUp m')) /\
   (let w2 := step win false (step win false w (MouseDown (mkMouse 120 130))) (MouseLeave (mkMouse 0 0)) in
    isDrawing (comp w2) = false /\
    exists cv', canvasRef (comp w2) = Some cv' /\
                saved w2 = app (saved w) [toDataURL cv'])).
Proof.
  split; [reflexivity|].
  apply leave_ends_stroke with (cv := mkCanvas 200 100 (Some (mkCtx 2 "#000000" 1 "round" "round" [])) [] (mkRect 50 80)).
  reflexivity.
Defined.

(** C5: with [readOnly = true], along any sequence of down, move and up
    (or leave, or touch-end) events started with no stroke in progress,
    every intermediate state has no stroke in progress, the same canvas
    (bitmap included) and no new [onSave] call. *)
Theorem readonly_suppression win w evs :
  isDrawing (comp w) = false -> forallb is_pointer_event evs = true ->
  forall k, let w' := run win true w (firstn k evs) in
    isDrawing (comp w') = false /\
    canvasRef (comp w') = canvasRef (comp w) /\
    saved w' = saved w.
Proof.
  intros Hd Hp k; simpl.
  rewrite run_readonly_pointer by (apply forallb_firstn; exact Hp).
  auto.
Qed.

Lemma readonly_suppression_witness :
  let win := mkWindow 1 in
  let w := mounted win None 100 50 true (mkRect 0 0) in
  let evs := [MouseDown (mkMouse 1 1); MouseMove (mkMouse 5 5);
              TouchStart (mkTouchEv [mkTouch 3 3]); MouseUp (mkMouse 5 5)] in
  let w' := run win true w (firstn 3 evs) in
  isDrawing (comp w') = false /\
  canvasRef (comp w') = canvasRef (comp w) /\
  saved w' = saved w.
Proof.
  exact (readonly_suppression (mkWindow 1)
           (mounted (mkWindow 1) None 100 50 true (mkRect 0 0))
           [MouseDown (mkMouse 1 1); MouseMove (mkMouse 5 5);
            TouchStart (mkTouchEv [mkTouch 3 3]); MouseUp (mkMouse 5 5)]
           eq_refl eq_refl 3).
Defined.

Definition is_clear (ev : UIEvent) : bool :=
  match ev with ClickClear => true | _ => false end.

Lemma run_saved_other win ro w evs :
  forallb (fun ev => negb (is_finalize ev || is_clear ev)) evs = true ->
  saved (run win ro w evs) = saved w.
Proof.
  revert w; induction evs as [|ev evs IH]; intros w H; [reflexivity|].
  simpl in H; apply andb_prop in H as [H1 H2].
  unfold run; simpl; fold (run win ro (step win ro w ev) evs).
  rewrite IH by exact H2.
  destruct (is_finalize ev) eqn:Hf; [discriminate|].
  apply step_saved_other; [exact Hf|].
  intros ->; discriminate.
Qed.

Lemma run_canvas_some win ro w evs cv :
  canvasRef (comp w) = Some cv ->
  exists cv', canvasRef (comp (run win ro w evs)) = Some cv'.
Proof.
  revert w cv; induction evs as [|ev evs IH]; intros w cv H; [eauto|].
  destruct (step_canvas_some win ro w ev cv H) as [cv1 H1].
  exact (IH _ _ H1).
Qed.

(** C3: a complete gesture down, move x N, up (mouse or touch; readOnly
    false, canvas mounted) makes no [onSave] call during the down and
    move events, and exactly one at the up event, carrying the encoding
    of the canvas as it stands after the up event. *)
Theorem gesture_single_emission win w cv d ms u :
  canvasRef (comp w) = Some cv ->
  is_down d = true -> forallb is_move ms = true -> is_finalize u = true ->
  (forall k, saved (run win false w (d :: firstn k ms)) = saved w) /\
  (let w' := run win false w (d :: app ms [u]) in
   exists cv', canvasRef (comp w') = Some cv' /\
               saved w' = app (saved w) [toDataURL cv']).
Proof.
  intros Hcv Hd Hm Hu.
  assert (Hother : forall k, forallb (fun ev => negb (is_finalize ev || is_clear ev))
                                      (d :: firstn k ms) = true).
  { intros k; simpl.
    replace (negb (is_finalize d || is_clear d)) with true
      by (destruct d; try discriminate; reflexivity).
    simpl. apply forallb_forall; intros ev Hin.
    apply (forallb_firstn _ k) in Hm.
    rewrite forallb_forall in Hm; specialize (Hm ev Hin).
    destruct ev; try discriminate; reflexivity. }
  split.
  - intros k; apply run_saved_other, Hother.
  - cbv zeta. change (d :: app ms [u]) with (app (d :: ms) [u]).
    rewrite run_app.
    destruct (run_canvas_some win false w (d :: ms) cv Hcv) as [cv1 H1].
    change (run win false (run win false w (d :: ms)) [u])
      with (step win false (run win false w (d :: ms)) u).
    rewrite (step_finalize win _ u Hu); rewrite H1.
    exists cv1; split; [exact H1|].
    cbn [emit idle saved]; f_equal.
    rewrite <- (firstn_all ms).
    apply run_saved_other, Hother.
Qed.

Lemma gesture_single_emission_witness :
  let win := mkWindow 2 in
  let w := mounted win None 100 50 true (mkRect 50 80) in
  let d := MouseDown (mkMouse 120 130) in
  let ms := [MouseMove (mkMouse 121 131); MouseMove (mkMouse 125 140)] in
  let u := MouseUp (mkMouse 125 140) in
  (forall k, saved (run win false w (d :: firstn k ms)) = saved w) /\
  (let w' := run win false w (d :: app ms [u]) in
   exists cv', canvasRef (comp w') = Some cv' /\
               saved w' = app (saved w) [toDataURL cv']).
Proof.
  apply gesture_single_emission with
    (cv := mkCanvas 200 100 (Some (mkCtx 2 "#000000" 1 "round" "round" [])) [] (mkRect 50 80));
    reflexivity.
Defined.

(** The stroke attributes [startDrawing] installs, from the tool state. *)
Definition tool_style (c : Comp) : string :=
  if isEraser c then "#ffffff" else color c.

Definition tool_width (c : Comp) : Q :=
  if isEraser c then 20%Q else lineWidth c.

Lemma step_down_shape win w ev cv :
  is_down ev = true -> wf_event ev = true ->
  canvasRef (comp w) = Some cv ->
  match cv_ctx cv with
  | None => canvasRef (comp (step win false w ev)) = Some cv
  | Some ctx =>
      exists p, canvasRef (comp (step win false w ev)) =
        Some (with_ctx cv (ctx_set_lineWidth
                (ctx_set_strokeStyle (ctx_moveTo (ctx_beginPath ctx) p)
                   (tool_style (comp w))) (tool_width (comp w))))
  end.
Proof.
  intros Hd Hwf Hcv; destruct_world w; simpl in Hcv; subst.
  destruct ev; try discriminate; unfold_handlers; simpl;
    [| destruct t as [[|t0 ts]]; try discriminate ];
    destruct (cv_ctx cv); simpl; eauto.
Qed.

Lemma step_move_shape win ro w ev :
  is_move ev = true ->
  canvasRef (comp (step win ro w ev)) = canvasRef (comp w) \/
  exists cv ctx p, canvasRef (comp w) = Some cv /\ cv_ctx cv = Some ctx /\
    canvasRef (comp (step win ro w ev)) =
      Some (with_bitmap (with_ctx cv (ctx_lineTo ctx p))
                        (ctx_stroke (ctx_lineTo ctx p) (cv_bitmap cv))).
Proof.
  intros Hm; destruct_world w.
  destruct ev; try discriminate; unfold_handlers; simpl;
    destruct isDrawing0, ro; simpl; auto;
    destruct cr as [cv|]; simpl; auto;
    destruct (cv_ctx cv) as [ctx|] eqn:Hctx; simpl; auto;
    [| destruct t as [[|t0 ts]]; simpl; auto ];
    right; do 3 eexists; eauto.
Qed.

(** Along the move events of a gesture, the canvas only gains strokes
    painted with the attributes its context holds. *)
Definition gesture_inv (b0 : Bitmap) (s : string) (wd : Q) (w : World) : Prop :=
  forall cv, canvasRef (comp w) = Some cv ->
  strokes_since b0 (cv_bitmap cv) s wd /\
  match cv_ctx cv with
  | Some ctx => ctx_strokeStyle ctx = s /\ ctx_lineWidth ctx = wd
  | None => True
  end.

Lemma strokes_since_refl b s wd : strokes_since b b s wd.
Proof. exists []; split; [symmetry; apply app_nil_r | constructor]. Qed.

Lemma gesture_inv_moves win ro b0 s wd w ms :
  forallb is_move ms = true -> gesture_inv b0 s wd w ->
  gesture_inv b0 s wd (run win ro w ms).
Proof.
  revert w; induction ms as [|ev ms IH]; intros w Hm Hi; [exact Hi|].
  simpl in Hm; apply andb_prop in Hm as [Hm1 Hm2].
  apply (IH _ Hm2).
  destruct (step_move_shape win ro w ev Hm1) as [Heq | (cv & ctx & p & Hcv & Hctx & Heq)].
  - intros cv H; rewrite Heq in H; exact (Hi cv H).
  - intros cv' H; rewrite Heq in H; injection H as <-.
    destruct (Hi cv Hcv) as [[ops [Hb Hops]] Hstyle]; rewrite Hctx in Hstyle.
    destruct Hstyle as [Hs Hw]; simpl.
    split; [|split; assumption].
    exists (app ops [OpStroke (ctx_path (ctx_lineTo ctx p)) s wd
                      (ctx_lineCap ctx) (ctx_lineJoin ctx) (ctx_scale ctx)]).
    split.
    + unfold ctx_stroke; rewrite Hb, <- app_assoc; simpl.
      rewrite Hs, Hw; reflexivity.
    + apply Forall_app; split; [exact Hops|].
      constructor; [|constructor]; do 4 eexists; reflexivity.
Qed.

(** A gesture down, move x N paints only strokes with the attributes
    chosen from the tool state at the down event. *)
Lemma gesture_strokes win w d ms cv cv' :
  is_down d = true -> wf_event d = true -> forallb is_move ms = true ->
  canvasRef (comp w) = Some cv ->
  canvasRef (comp (run win false w (d :: ms))) = Some cv' ->
  strokes_since (cv_bitmap cv) (cv_bitmap cv') (tool_style (comp w)) (tool_width (comp w)).
Proof.
  intros Hd Hwf Hm Hcv Hcv'.
  assert (Hi : gesture_inv (cv_bitmap cv) (tool_style (comp w)) (tool_width (comp w))
                 (step win false w d)).
  { pose proof (step_down_shape win w d cv Hd Hwf Hcv) as Hs.
    intros cv1 H1.
    destruct (cv_ctx cv) as [ctx|] eqn:Hctx.
    - destruct Hs as [p Hp]; rewrite Hp in H1; injection H1 as <-.
      simpl; split; [apply strokes_since_refl | split; reflexivity].
    - rewrite Hs in H1; injection H1 as <-; rewrite Hctx.
      split; [apply strokes_since_refl | exact I]. }
  exact (proj1 (gesture_inv_moves win false _ _ _ _ ms Hm Hi cv' Hcv')).
Qed.

(** [setLineWidth] is never called: the pen width keeps its initial 3. *)
Lemma step_lineWidth win ro w ev :
  lineWidth (comp (step win ro w ev)) = lineWidth (comp w).
Proof.
  destruct_world w; destruct ev; unfold_handlers;
    destruct ro; simpl; split_matches; simpl in *;
    repeat match goal with H : (_, _) = (_, _) |- _ => inversion H; subst; clear H end;
    reflexivity.
Qed.

Lemma run_lineWidth win ro w evs :
  lineWidth (comp (run win ro w evs)) = lineWidth (comp w).
Proof.
  revert w; induction evs as [|ev evs IH]; intros w; [reflexivity|].
  unfold run; simpl; fold (run win ro (step win ro w ev) evs).
  rewrite IH; apply step_lineWidth.
Qed.

Lemma mounted_lineWidth win img cw ch ok rect :
  lineWidth (comp (mounted win img cw ch ok rect)) = 3%Q.
Proof.
  unfold mounted, mount_effect; cbv [bind get_comp put_comp put_canvas
    modify_comp ret set_pending getContext]; simpl.
  destruct ok; simpl; [|reflexivity].
  destruct img as [s|]; simpl; [destruct (String.eqb s "")|]; reflexivity.
Qed.

(** C6 (eraser override): with the eraser active, every stroke of a
    gesture is painted in ["#ffffff"] at width 20, whatever the pen
    colour; the eraser buttons leave the stored pen colour unchanged, and
    after the pencil button the next gesture paints in that colour at
    the pen width 3. *)
Theorem eraser_override win img cw ch ok rect evs d ms :
  is_down d = true -> wf_event d = true -> forallb is_move ms = true ->
  let w := run win false (mounted win img cw ch ok rect) evs in
  (isEraser (comp w) = true ->
   forall cv cv', canvasRef (comp w) = Some cv ->
   canvasRef (comp (run win false w (d :: ms))) = Some cv' ->
   strokes_since (cv_bitmap cv) (cv_bitmap cv') "#ffffff" 20) /\
  color (comp (step win false w ClickEraser)) = color (comp w) /\
  (let w1 := step win false w ClickPencil in
   color (comp w1) = color (comp w) /\ isEraser (comp w1) = false /\
   forall cv cv', canvasRef (comp w1) = Some cv ->
   canvasRef (comp (run win false w1 (d :: ms))) = Some cv' ->
   strokes_since (cv_bitmap cv) (cv_bitmap cv') (color (comp w)) 3).
Proof.
  intros Hd Hwf Hm w.
  assert (Hlw : lineWidth (comp w) = 3%Q)
    by (unfold w; rewrite run_lineWidth; apply mounted_lineWidth).
  split; [|split].
  - intros He cv cv' Hcv Hcv'.
    pose proof (gesture_strokes win w d ms cv cv' Hd Hwf Hm Hcv Hcv') as H.
    unfold tool_style, tool_width in H; rewrite He in H; exact H.
  - destruct_world w; reflexivity.
  - assert (Hc : color (comp (step win false w ClickPencil)) = color (comp w))
      by (destruct_world w; reflexivity).
    assert (He : isEraser (comp (step win false w ClickPencil)) = false)
      by (destruct_world w; reflexivity).
    assert (Hl : lineWidth (comp (step win false w ClickPencil)) = 3%Q)
      by (rewrite step_lineWidth; exact Hlw).
    split; [exact Hc | split; [exact He|]].
    intros cv cv' Hcv Hcv'.
    pose proof (gesture_strokes win _ d ms cv cv' Hd Hwf Hm Hcv Hcv') as H.
    unfold tool_style, tool_width in H; rewrite He, Hc, Hl in H; exact H.
Qed.

Lemma eraser_override_witness :
  let win := mkWindow 1 in
  let d := MouseDown (mkMouse 10 10) in
  let ms := [MouseMove (mkMouse 20 20); MouseMove (mkMouse 30 25)] in
  let w := run win false (mounted win None 100 50 true (mkRect 0 0))
                 [ClickSwatch Red; ClickEraser] in
  (isEraser (comp w) = true ->
   forall cv cv', canvasRef (comp w) = Some cv ->
   canvasRef (comp (run win false w (d :: ms))) = Some cv' ->
   strokes_since (cv_bitmap cv) (cv_bitmap cv') "#ffffff" 20) /\
  color (comp (step win false w ClickEraser)) = color (comp w) /\
  (let w1 := step win false w ClickPencil in
   color (comp w1) = color (comp w) /\ isEraser (comp w1) = false /\
   forall cv cv', canvasRef (comp w1) = Some cv ->
   canvasRef (comp (run win false w1 (d :: ms))) = Some cv' ->
   strokes_since (cv_bitmap cv) (cv_bitmap cv') (color (comp w)) 3).
Proof.
  exact (eraser_override (mkWindow 1) None 100 50 true (mkRect 0 0)
           [ClickSwatch Red; ClickEraser] (MouseDown (mkMouse 10 10))
           [MouseMove (mkMouse 20 20); MouseMove (mkMouse 30 25)]
           eq_refl eq_refl eq_refl).
Defined.

(* ------------------------------------------------------------------ *)
(** ** What the [onSave] calls carry *)

Lemma toDataURL_nonempty cv : toDataURL cv <> "".
Proof. unfold toDataURL; destruct (canvas_image cv); discriminate. Qed.

Lemma step_clear win w cv ctx :
  canvasRef (comp w) = Some cv -> cv_ctx cv = Some ctx ->
  exists cv', canvasRef (comp (step win false w ClickClear)) = Some cv' /\
    cv_width cv' = cv_width cv /\ cv_height cv' = cv_height cv /\
    saved (step win false w ClickClear) = app (saved w) [""].
Proof.
  intros Hcv Hctx; destruct_world w; simpl in Hcv; subst.
  unfold_handlers; simpl; rewrite Hctx; simpl; split_matches; simpl; eauto.
Qed.

Lemma step_clear_no_ctx win ro w :
  match canvasRef (comp w) with
  | Some cv => cv_ctx cv = None
  | None => True
  end -> step win ro w ClickClear = w.
Proof.
  intros H; destruct_world w; destruct ro; [reflexivity|].
  unfold_handlers; simpl in *; destruct cr as [cv|]; simpl; [rewrite H|]; reflexivity.
Qed.


(** C1, counterexample: the mounted canvas and the canvas right after
    clear are both blank, yet a pointer-up on the first, and a down/up
    gesture on the second, hand [onSave] a non-empty PNG data URL. *)
Lemma blank_surface_snapshot_not_empty :
  let win := mkWindow 1 in
  let w0 := mounted win None 100 50 true (mkRect 0 0) in
  let w1 := run win false w0 [ClickClear] in
  option_map cv_bitmap (canvasRef (comp w0)) = Some [] /\
  option_map cv_bitmap (canvasRef (comp w1)) = Some [] /\
  saved (run win false w0 [MouseUp (mkMouse 0 0)])
    = ["data:image/png;base64,100x50;0"] /\
  saved (run win false w1 [MouseDown (mkMouse 5 5); MouseUp (mkMouse 5 5)])
    = [""; "data:image/png;base64,100x50;0"].
Proof. vm_compute; repeat split; reflexivity. Qed.

(** C1, as the code does it: clear (canvas and 2D context available)
    calls [onSave("")]; every other event calls [onSave] only with the
    [toDataURL] encoding of the canvas it finds, a non-empty string, even
    when the canvas is blank. *)
Theorem empty_snapshot_only_from_clear win ro w ev :
  (ro = false -> ev = ClickClear ->
   forall cv ctx, canvasRef (comp w) = Some cv -> cv_ctx cv = Some ctx ->
   saved (step win ro w ev) = app (saved w) [""]) /\
  (ev <> ClickClear ->
   exists l, saved (step win ro w ev) = app (saved w) l /\
     Forall (fun s => s <> "" /\
               exists cv, canvasRef (comp w) = Some cv /\ s = toDataURL cv) l).
Proof.
  split.
  - intros -> -> cv ctx Hcv Hctx.
    destruct (step_clear win w cv ctx Hcv Hctx) as (_ & _ & _ & _ & H); exact H.
  - intros Hc.
    destruct (is_finalize ev) eqn:Hf.
    + destruct ro.
      * rewrite step_readonly_pointer by (unfold is_pointer_event; rewrite Hf;
          apply orb_true_r).
        exists []; rewrite app_nil_r; auto.
      * rewrite step_finalize by exact Hf.
        destruct (canvasRef (comp w)) as [cv|] eqn:Hcv.
        -- exists [toDataURL cv]; split; [reflexivity|].
           constructor; [|constructor].
           split; [apply toDataURL_nonempty | exists cv; auto].
        -- exists []; rewrite app_nil_r; auto.
    + exists []; rewrite app_nil_r; split; [|constructor].
      apply step_saved_other; [exact Hf | exact Hc].
Qed.

Lemma empty_snapshot_only_from_clear_witness :
  let win := mkWindow 1 in
  let w := mounted win None 100 50 true (mkRect 0 0) in
  saved (step win false w ClickClear) = app (saved w) [""] /\
  exists l, saved (step win false w (MouseUp (mkMouse 0 0))) = app (saved w) l /\
            Forall (fun s => s <> "" /\
                      exists cv, canvasRef (comp w) = Some cv /\ s = toDataURL cv) l.
Proof.
  split.
  - exact (proj1 (empty_snapshot_only_from_clear (mkWindow 1) false
             (mounted (mkWindow 1) None 100 50 true (mkRect 0 0)) ClickClear)
             eq_refl eq_refl
             (mkCanvas 100 50 (Some (mkCtx 1 "#000000" 1 "round" "round" [])) [] (mkRect 0 0))
             (mkCtx 1 "#000000" 1 "round" "round" []) eq_refl eq_refl).
  - apply (proj2 (empty_snapshot_only_from_clear (mkWindow 1) false
             (mounted (mkWindow 1) None 100 50 true (mkRect 0 0)) (MouseUp (mkMouse 0 0)))).
    discriminate.
Defined.

(** The size of the backing store set by the mount effect. *)
Definition physical_width (win : Window) (clientW : Z) : Z :=
  num_to_unsigned_long (fmul (inject_Z clientW) (dpr_of win)).








Example physical_width_dpr2 : physical_width (mkWindow 2) 100 = 200%Z.
Proof. reflexivity. Qed.

(** The double nearest to a rational. *)
Definition double_of (q : Q) : Q :=
  match round_double q with Some d => d | None => 0 end.

(** The backing store follows the floating-point product: at pixel ratio
    1.2, a 500 px container gives 600 (the exact product of the double
    1.2 by 500 is just above 600), and at pixel ratio 60/55 (110 % zoom)
    a 385 px container gives 419 (the product rounds to a double below
    420). *)
Example physical_width_doubles :
  physical_width (mkWindow (double_of (6 # 5))) 500 = 600%Z /\
  physical_width (mkWindow (double_of (60 # 55))) 385 = 419%Z.
Proof. split; vm_compute; reflexivity. Qed.

(** C10, counterexample: with the canvas mounted but no 2D context,
    pointer-up still calls [onSave] with the canvas's encoding. *)
Lemma finalize_without_context_emits :
  let win := mkWindow 1 in
  let w := mounted win None 100 50 false (mkRect 0 0) in
  canvasRef (comp w) = Some (mkCanvas 100 50 None [] (mkRect 0 0)) /\
  saved w = [] /\
  saved (step win false w (MouseUp (mkMouse 0 0)))
    = ["data:image/png;base64,100x50;0"].
Proof. vm_compute; repeat split; reflexivity. Qed.

(** C10, as the code does it (readOnly false).  Without a mounted
    canvas, begin, extend and clear change nothing and raise nothing,
    and finalize only lowers the drawing flag.  With a canvas but no 2D
    context, begin, extend and clear change nothing and raise nothing,
    while finalize lowers the drawing flag and still calls [onSave] with
    the canvas's [toDataURL] encoding. *)
Theorem unavailable_target win w ev :
  (is_down ev || is_move ev || is_clear ev = true ->
   match canvasRef (comp w) with
   | None => True
   | Some cv => cv_ctx cv = None
   end ->
   step win false w ev = w) /\
  (is_finalize ev = true -> canvasRef (comp w) = None ->
   step win false w ev = idle w) /\
  (is_finalize ev = true -> forall cv, canvasRef (comp w) = Some cv ->
   cv_ctx cv = None -> step win false w ev = emit (idle w) (toDataURL cv)).
Proof.
  split; [|split].
  - intros Hev Hna.
    destruct (is_clear ev) eqn:Hc.
    + destruct ev; try discriminate; apply step_clear_no_ctx; exact Hna.
    + destruct_world w; simpl in Hna.
      destruct ev; try discriminate; unfold_handlers; simpl;
        destruct cr as [cv|]; simpl;
        try (match type of Hna with cv_ctx _ = None => rewrite Hna end); simpl;
        try destruct isDrawing0; reflexivity.
  - intros Hf Hn; rewrite step_finalize by exact Hf; rewrite Hn; reflexivity.
  - intros Hf cv Hcv _; rewrite step_finalize by exact Hf; rewrite Hcv; reflexivity.
Qed.

Lemma unavailable_target_witness :
  let win := mkWindow 1 in
  let w := mounted win None 100 50 false (mkRect 0 0) in
  let cv := mkCanvas 100 50 None [] (mkRect 0 0) in
  step win false w (MouseDown (mkMouse 1 1)) = w /\
  step win false w ClickClear = w /\
  step win false w (MouseUp (mkMouse 1 1)) = emit (idle w) (toDataURL cv).
Proof.
  split; [|split].
  - exact (proj1 (unavailable_target (mkWindow 1)
             (mounted (mkWindow 1) None 100 50 false (mkRect 0 0)) (MouseDown (mkMouse 1 1)))
             eq_refl eq_refl).
  - exact (proj1 (unavailable_target (mkWindow 1)
             (mounted (mkWindow 1) None 100 50 false (mkRect 0 0)) ClickClear)
             eq_refl eq_refl).
  - exact (proj2 (proj2 (unavailable_target (mkWindow 1)
             (mounted (mkWindow 1) None 100 50 false (mkRect 0 0)) (MouseUp (mkMouse 1 1))))
             eq_refl (mkCanvas 100 50 None [] (mkRect 0 0)) eq_refl eq_refl).
Defined.

(* ------------------------------------------------------------------ *)
(** ** Further properties of the component *)

(** The successive paths of a gesture: starting from the subpath [acc]
    (most recent point first), each new point gives the subpath so far. *)
Fixpoint prefix_paths (acc : list Point) (ps : list Point) : list (list Point) :=
  match ps with
  | [] => []
  | p :: ps' => (p :: acc) :: prefix_paths (p :: acc) ps'
  end.

(** Surface-local point of a mouse event over a canvas at [rect]. *)
Definition local_point (rect : DOMRect) (m : MouseEv) : Point :=
  mkPoint (m_clientX m - rect_left rect)%Q (m_clientY m - rect_top rect)%Q.

Lemma step_mouse_down_ctx win w cv ctx m :
  canvasRef (comp w) = Some cv -> cv_ctx cv = Some ctx ->
  canvasRef (comp (step win false w (MouseDown m))) =
    Some (with_ctx cv (mkCtx (ctx_scale ctx) (tool_style (comp w)) (tool_width (comp w))
                         (ctx_lineCap ctx) (ctx_lineJoin ctx) [[local_point (cv_rect cv) m]])) /\
  isDrawing (comp (step win false w (MouseDown m))) = true.
Proof.
  intros Hcv Hctx; destruct_world w; simpl in Hcv; subst.
  unfold_handlers; simpl; rewrite Hctx; simpl; split; reflexivity.
Qed.

Lemma step_mouse_move_drawing win w cv ctx m :
  canvasRef (comp w) = Some cv -> cv_ctx cv = Some ctx -> isDrawing (comp w) = true ->
  let ctx1 := ctx_lineTo ctx (local_point (cv_rect cv) m) in
  canvasRef (comp (step win false w (MouseMove m))) =
    Some (with_bitmap (with_ctx cv ctx1) (ctx_stroke ctx1 (cv_bitmap cv))) /\
  isDrawing (comp (step win false w (MouseMove m))) = true.
Proof.
  intros Hcv Hctx Hd; destruct_world w; simpl in Hcv, Hd; subst.
  unfold_handlers; simpl; rewrite Hctx; simpl; split; reflexivity.
Qed.

Lemma moves_restroke win ms : forall w cv ctx acc,
  canvasRef (comp w) = Some cv -> cv_ctx cv = Some ctx ->
  isDrawing (comp w) = true -> ctx_path ctx = [acc] ->
  exists cv' ctx',
    canvasRef (comp (run win false w (map MouseMove ms))) = Some cv' /\
    cv_ctx cv' = Some ctx' /\
    ctx_path ctx' = [app (rev (map (local_point (cv_rect cv)) ms)) acc] /\
    cv_rect cv' = cv_rect cv /\
    cv_bitmap cv' = app (cv_bitmap cv)
      (map (fun sp => OpStroke [sp] (ctx_strokeStyle ctx) (ctx_lineWidth ctx)
                        (ctx_lineCap ctx) (ctx_lineJoin ctx) (ctx_scale ctx))
           (prefix_paths acc (map (local_point (cv_rect cv)) ms))).
Proof.
  induction ms as [|m ms IH]; intros w cv ctx acc Hcv Hctx Hd Hp.
  - exists cv, ctx; simpl; rewrite app_nil_r; auto.
  - destruct (step_mouse_move_drawing win w cv ctx m Hcv Hctx Hd) as [H1 H2].
    set (p := local_point (cv_rect cv) m) in *.
    set (ctx1 := ctx_lineTo ctx p) in *.
    assert (Hp1 : ctx_path ctx1 = [p :: acc]) by (unfold ctx1, ctx_lineTo; rewrite Hp; reflexivity).
    destruct (IH _ _ ctx1 (p :: acc) H1 eq_refl H2 Hp1)
      as (cv' & ctx' & G1 & G2 & G3 & G4 & G5).
    change (run win false w (map MouseMove (m :: ms)))
      with (run win false (step win false w (MouseMove m)) (map MouseMove ms)).
    exists cv', ctx'.
    refine (conj G1 (conj G2 (conj _ (conj _ _)))).
    + rewrite G3; simpl; rewrite <- app_assoc; reflexivity.
    + rewrite G4; reflexivity.
    + rewrite G5; cbn [cv_bitmap with_bitmap with_ctx ctx_stroke].
      unfold ctx_stroke; rewrite Hp1, <- app_assoc; reflexivity.
Qed.

(** X: during a mouse gesture (readOnly false, canvas and 2D context
    available), the current path is one subpath through the down point
    and every move point, and each move event strokes the whole path
    drawn so far again, with the attributes chosen at the down event:
    after N moves the bitmap has gained exactly N strokes, the k-th
    along the first k + 1 points. *)
Theorem gesture_restrokes_path win w cv ctx m0 ms :
  canvasRef (comp w) = Some cv -> cv_ctx cv = Some ctx ->
  let pts := map (local_point (cv_rect cv)) ms in
  let p0 := local_point (cv_rect cv) m0 in
  exists cv' ctx',
    canvasRef (comp (run win false w (MouseDown m0 :: map MouseMove ms))) = Some cv' /\
    cv_ctx cv' = Some ctx' /\
    ctx_path ctx' = [rev (p0 :: pts)] /\
    cv_bitmap cv' = app (cv_bitmap cv)
      (map (fun sp => OpStroke [sp] (tool_style (comp w)) (tool_width (comp w))
                        (ctx_lineCap ctx) (ctx_lineJoin ctx) (ctx_scale ctx))
           (prefix_paths [p0] pts)).
Proof.
  intros Hcv Hctx pts p0.
  destruct (step_mouse_down_ctx win w cv ctx m0 Hcv Hctx) as [H1 H2].
  destruct (moves_restroke win ms _ _ _ [p0] H1 eq_refl H2 eq_refl)
    as (cv' & ctx' & G1 & G2 & G3 & G4 & G5).
  change (run win false w (MouseDown m0 :: map MouseMove ms))
    with (run win false (step win false w (MouseDown m0)) (map MouseMove ms)).
  exists cv', ctx'.
  refine (conj G1 (conj G2 (conj _ _))).
  - rewrite G3; reflexivity.
  - rewrite G5; reflexivity.
Qed.

Lemma gesture_restrokes_path_witness :
  let win := mkWindow 1 in
  let w := mounted win None 100 50 true (mkRect 10 10) in
  let cv := mkCanvas 100 50 (Some (mkCtx 1 "#000000" 1 "round" "round" [])) [] (mkRect 10 10) in
  let ctx := mkCtx 1 "#000000" 1 "round" "round" [] in
  let ms := [mkMouse 20 20; mkMouse 30 25] in
  let pts := map (local_point (cv_rect cv)) ms in
  let p0 := local_point (cv_rect cv) (mkMouse 15 15) in
  exists cv' ctx',
    canvasRef (comp (run win false w (MouseDown (mkMouse 15 15) :: map MouseMove ms))) = Some cv' /\
    cv_ctx cv' = Some ctx' /\
    ctx_path ctx' = [rev (p0 :: pts)] /\
    cv_bitmap cv' = app (cv_bitmap cv)
      (map (fun sp => OpStroke [sp] (tool_style (comp w)) (tool_width (comp w))
                        (ctx_lineCap ctx) (ctx_lineJoin ctx) (ctx_scale ctx))
           (prefix_paths [p0] pts)).
Proof.
  exact (gesture_restrokes_path (mkWindow 1) (mounted (mkWindow 1) None 100 50 true (mkRect 10 10))
           (mkCanvas 100 50 (Some (mkCtx 1 "#000000" 1 "round" "round" [])) [] (mkRect 10 10))
           (mkCtx 1 "#000000" 1 "round" "round" []) (mkMouse 15 15)
           [mkMouse 20 20; mkMouse 30 25] eq_refl eq_refl).
Defined.

(** The toolbar's palette. *)
Definition palette_color (s : string) : Prop :=
  s = "#1e1b4b" \/ s = "#dc2626" \/ s = "#2563eb".

(** Pen strokes: a palette colour at width 3; eraser strokes: white at
    width 20. *)
Definition tool_stroke (s : string) (wd : Q) : Prop :=
  (palette_color s /\ wd = 3%Q) \/ (s = "#ffffff" /\ wd = 20%Q).

Definition paint_ok (op : PaintOp) : Prop :=
  match op with
  | OpStroke _ s wd _ _ _ => tool_stroke s wd
  | _ => True
  end.

Definition style_inv (w : World) : Prop :=
  palette_color (color (comp w)) /\ lineWidth (comp w) = 3%Q /\
  forall cv, canvasRef (comp w) = Some cv ->
    Forall paint_ok (cv_bitmap cv) /\
    (isDrawing (comp w) = true -> forall ctx, cv_ctx cv = Some ctx ->
       tool_stroke (ctx_strokeStyle ctx) (ctx_lineWidth ctx)).

Lemma swatch_palette s : palette_color (swatch_color s).
Proof. destruct s; unfold palette_color; simpl; auto. Qed.

Lemma tool_style_ok c :
  palette_color (color c) -> lineWidth c = 3%Q ->
  tool_stroke (if isEraser c then "#ffffff" else color c)
              (if isEraser c then 20%Q else lineWidth c).
Proof. intros Hc Hl; destruct (isEraser c); unfold tool_stroke; auto. Qed.

Lemma paint_ok_app b ops : Forall paint_ok b -> Forall paint_ok ops ->
  Forall paint_ok (app b ops).
Proof. intros; apply Forall_app; auto. Qed.

Lemma clearRect_ok ctx W H x y w h b :
  Forall paint_ok b -> Forall paint_ok (ctx_clearRect ctx W H x y w h b).
Proof.
  intros Hb; unfold ctx_clearRect; cbv zeta.
  destruct (_ && _ && _ && _); [constructor | apply paint_ok_app; auto].
  repeat constructor.
Qed.

Ltac style_finish :=
  repeat match goal with
         | Hs : forall cv, ?x = Some cv -> _, H : ?x = Some ?c |- _ =>
             destruct (Hs c H); clear Hs
         | Hs : forall cv, Some ?c = Some cv -> _ |- _ =>
             destruct (Hs c eq_refl); clear Hs
         end;
  try split;
  [ repeat first [ apply paint_ok_app | apply clearRect_ok
                 | apply Forall_cons | apply Forall_nil | assumption ];
    simpl
  | .. ];
  try (let Hx := fresh in
       intros ? ? Hx; injection Hx as <-; simpl);
  unfold tool_stroke in *;
  first [ right; split; reflexivity
        | left; split; [assumption | reflexivity]
        | eauto
        | idtac ].

Lemma step_style_inv win ro w ev :
  wf_event ev = true -> style_inv w -> style_inv (step win ro w ev).
Proof.
  intros Hwf (Hc & Hl & Hs); destruct_world w; simpl in Hc, Hl, Hs.
  destruct ev; unfold_handlers; destruct ro; simpl;
    try (destruct isDrawing0); simpl; split_matches; simpl in *;
    repeat match goal with H : (_, _) = (_, _) |- _ => inversion H; subst; clear H end;
    try (match goal with H : touches _ = [] |- _ => rewrite H in Hwf; discriminate end);
    unfold style_inv; simpl;
    (split; [try apply swatch_palette; auto | split; [auto|]]);
    intros cv' Hcv'; try discriminate;
    repeat match goal with H : Some _ = Some _ |- _ => injection H as H; subst end;
    style_finish.
Qed.

Lemma mounted_style_inv win img cw ch ok rect :
  style_inv (mounted win img cw ch ok rect).
Proof.
  unfold mounted, mount_effect; cbv [bind get_comp put_comp put_canvas
    modify_comp ret set_pending getContext]; simpl.
  destruct ok; simpl;
    [destruct img as [s|]; simpl; [destruct (String.eqb s "")|] |];
    unfold style_inv; simpl;
    (split; [unfold palette_color; auto | split; [reflexivity |]]);
    intros cv Hcv; injection Hcv as <-; simpl;
    (split; [constructor | intros; discriminate]).
Qed.

Lemma run_style_inv win ro w evs :
  forallb wf_event evs = true -> style_inv w -> style_inv (run win ro w evs).
Proof.
  revert w; induction evs as [|ev evs IH]; intros w Hwf Hi; [exact Hi|].
  simpl in Hwf; apply andb_true_iff in Hwf as [Hev Hevs].
  change (run win ro w (ev :: evs)) with (run win ro (step win ro w ev) evs).
  apply IH; [exact Hevs | apply step_style_inv; assumption].
Qed.

(** Whatever well-formed events reach a mounted canvas, every stroke in its
    bitmap is a pen stroke (one of the three palette colours at line width
    3) or an eraser stroke ([#ffffff] at width 20), and the selected colour
    is always one of the palette colours. *)
Theorem strokes_use_tool_styles win ro img cw ch ok rect evs cv :
  forallb wf_event evs = true ->
  canvasRef (comp (run win ro (mounted win img cw ch ok rect) evs)) = Some cv ->
  Forall paint_ok (cv_bitmap cv) /\
  palette_color (color (comp (run win ro (mounted win img cw ch ok rect) evs))).
Proof.
  intros Hwf Hcv.
  destruct (run_style_inv win ro _ evs Hwf (mounted_style_inv win img cw ch ok rect))
    as (Hc & _ & Hs).
  split; [apply (Hs cv Hcv) | exact Hc].
Qed.

Lemma strokes_use_tool_styles_witness :
  let win := mkWindow 2 in
  let w0 := mounted win None 100 50 true (mkRect 10 10) in
  let evs := [ClickSwatch Red; MouseDown (mkMouse 15 15); MouseMove (mkMouse 20 20);
              MouseUp (mkMouse 20 20); ClickEraser; MouseDown (mkMouse 30 30);
              MouseMove (mkMouse 35 30); MouseLeave (mkMouse 35 30)] in
  let cv := match canvasRef (comp (run win false w0 evs)) with
            | Some cv => cv | None => fresh_canvas true (mkRect 10 10) end in
  Forall paint_ok (cv_bitmap cv) /\
  palette_color (color (comp (run win false w0 evs))).
Proof.
  exact (strokes_use_tool_styles (mkWindow 2) false None 100 50 true (mkRect 10 10)
           [ClickSwatch Red; MouseDown (mkMouse 15 15); MouseMove (mkMouse 20 20);
            MouseUp (mkMouse 20 20); ClickEraser; MouseDown (mkMouse 30 30);
            MouseMove (mkMouse 35 30); MouseLeave (mkMouse 35 30)]
           _ ltac:(reflexivity) ltac:(vm_compute; reflexivity)).
Defined.

Definition is_swatch (ev : UIEvent) : bool :=
  match ev with ClickSwatch _ => true | _ => false end.

Lemma step_color win ro w ev :
  is_swatch ev = false -> color (comp (step win ro w ev)) = color (comp w).
Proof.
  intros Hs; destruct_world w; destruct ev; try discriminate;
    unfold_handlers; destruct ro; simpl; split_matches; simpl in *;
    repeat match goal with H : (_, _) = (_, _) |- _ => inversion H; subst; clear H end;
    reflexivity.
Qed.

Lemma run_color win ro w evs :
  forallb (fun ev => negb (is_swatch ev)) evs = true ->
  color (comp (run win ro w evs)) = color (comp w).
Proof.
  revert w; induction evs as [|ev evs IH]; intros w Hf; [reflexivity|].
  simpl in Hf; apply andb_true_iff in Hf as [Hev Hevs].
  change (run win ro w (ev :: evs)) with (run win ro (step win ro w ev) evs).
  rewrite IH by exact Hevs.
  apply step_color; destruct (is_swatch ev); [discriminate | reflexivity].
Qed.

(** Only a swatch click changes the selected colour: drawing, erasing,
    clearing and switching tools keep it, so going back to the pencil
    after using the eraser draws in the colour chosen before. *)
Theorem color_survives_eraser win w evs :
  forallb (fun ev => negb (is_swatch ev)) evs = true ->
  color (comp (run win false w evs)) = color (comp w) /\
  tool_style (comp (run win false w (app evs [ClickPencil]))) = color (comp w).
Proof.
  intros Hf; split; [apply run_color, Hf|].
  rewrite run_app; simpl.
  unfold tool_style; cbv [step dispatch setIsEraser modify_comp bind get_comp put_comp ret];
    simpl.
  apply run_color, Hf.
Qed.

Lemma color_survives_eraser_witness :
  let win := mkWindow 1 in
  let w := step win false (mounted win None 100 50 true (mkRect 0 0)) (ClickSwatch Red) in
  let evs := [ClickEraser; MouseDown (mkMouse 5 5); MouseMove (mkMouse 9 9);
              MouseUp (mkMouse 9 9)] in
  color (comp (run win false w evs)) = color (comp w) /\
  tool_style (comp (run win false w (app evs [ClickPencil]))) = color (comp w).
Proof.
  exact (color_survives_eraser (mkWindow 1)
    (step (mkWindow 1) false (mounted (mkWindow 1) None 100 50 true (mkRect 0 0)) (ClickSwatch Red))
    [ClickEraser; MouseDown (mkMouse 5 5); MouseMove (mkMouse 9 9); MouseUp (mkMouse 9 9)]
    eq_refl).
Defined.

(* ------------------------------------------------------------------ *)
(** ** [MainApp]: the note list (src/components/Canvas.tsx, the
    [filteredNotes] and [groupedNotes] memos of [MainApp]) *)

(** [DevotionalNote] (src/src/services/firebase.ts).  The fields read
    through optional chaining ([title?.], [content?.], [tags?.]) may be
    missing in a Firestore document, so they are options; so is [mood]. *)
Record DevotionalNote := mkNote {
  n_id : string;
  n_title : option string;
  n_content : option string;
  n_drawingData : option string;
  n_createdAt : Q;
  n_updatedAt : Q;
  n_tags : option (list string);
  n_mood : option string;
  n_userId : option string }.

(** [String.prototype.includes]: [pat] occurs in [s] at some index. *)
Fixpoint includes (s pat : string) : bool :=
  if String.prefix pat s then true
  else match s with
       | EmptyString => false
       | String _ s' => includes s' pat
       end.

(** [Array.prototype.sort] with the comparator
    [(a, b) => b.createdAt - a.createdAt]: the sort is stable, so its
    result is the one of this insertion sort (each element goes after the
    elements already placed whose [createdAt] is not smaller). *)
Fixpoint insert_desc (x : DevotionalNote) (l : list DevotionalNote) :=
  match l with
  | [] => [x]
  | y :: ys =>
      if negb (Qle_bool (n_createdAt x) (n_createdAt y)) then x :: l
      else y :: insert_desc x ys
  end.

Definition sort_desc (l : list DevotionalNote) : list DevotionalNote :=
  fold_left (fun acc x => insert_desc x acc) l [].

Section MainAppLists.

(** [String.prototype.toLowerCase] (Unicode case mapping). *)
Variable toLowerCase : string -> string.

Definition opt_includes (o : option string) (q : string) : bool :=
  match o with
  | Some s => includes (toLowerCase s) (toLowerCase q)
  | None => false
  end.

Definition matchesSearch (n : DevotionalNote) (searchQuery : string) : bool :=
  opt_includes (n_title n) searchQuery
  || opt_includes (n_content n) searchQuery
  || match n_tags n with
     | Some ts => existsb (fun t => includes (toLowerCase t) (toLowerCase searchQuery)) ts
     | None => false
     end.

(** [filterMood ? note.mood === filterMood : true]; [''] is falsy. *)
Definition matchesMood (n : DevotionalNote) (filterMood : option string) : bool :=
  match filterMood with
  | Some m =>
      if String.eqb m "" then true
      else match n_mood n with Some m' => String.eqb m' m | None => false end
  | None => true
  end.

Definition filteredNotes (notes : list DevotionalNote) (searchQuery : string)
    (filterMood : option string) : list DevotionalNote :=
  sort_desc (filter (fun n => matchesSearch n searchQuery && matchesMood n filterMood) notes).

(** A note with a title, a content or at least one tag. *)
Definition has_text (n : DevotionalNote) : bool :=
  match n_title n with Some _ => true | None => false end
  || match n_content n with Some _ => true | None => false end
  || match n_tags n with Some (_ :: _) => true | _ => false end.

(** [now.getTime()], and the local [getMonth()] and [getFullYear()] of a
    time value. *)
Variable now : Z.
Variable localMonthYear : Z -> Z * Z.

(** [new Date(t).getTime()]: TimeClip truncates, and is NaN ([None])
    beyond 8.64e15 ms. *)
Definition time_clip (t : Q) : option Z :=
  if Qle_bool (Qabs t) (inject_Z 8640000000000000%Z) then
    Some (if Qle_bool 0 t then Qfloor t else Z.opp (Qfloor (Qopp t)))
  else None.

Inductive Group := EstaSemana | EsteMes | Antigos.

Definition group_eqb (a b : Group) : bool :=
  match a, b with
  | EstaSemana, EstaSemana | EsteMes, EsteMes | Antigos, Antigos => true
  | _, _ => false
  end.

(** The branch of the [forEach] body a note takes. *)
Definition group_of (n : DevotionalNote) : Group :=
  match time_clip (n_createdAt n) with
  | None => Antigos
  | Some t =>
      let diffTime := Qabs (inject_Z (now - t)%Z) in
      let diffDays := Qceiling (diffTime / inject_Z (1000 * 60 * 60 * 24)%Z) in
      if Z.leb diffDays 7 then EstaSemana
      else let '(m, y) := localMonthYear t in
           let '(m', y') := localMonthYear now in
           if Z.eqb m m' && Z.eqb y y' then EsteMes else Antigos
  end.

Record Groups := mkGroups {
  g_semana : list DevotionalNote;
  g_mes : list DevotionalNote;
  g_antigos : list DevotionalNote }.

Definition push_note (g : Groups) (n : DevotionalNote) : Groups :=
  match group_of n with
  | EstaSemana => mkGroups (app (g_semana g) [n]) (g_mes g) (g_antigos g)
  | EsteMes => mkGroups (g_semana g) (app (g_mes g) [n]) (g_antigos g)
  | Antigos => mkGroups (g_semana g) (g_mes g) (app (g_antigos g) [n])
  end.

Definition groupedNotes (filtered : list DevotionalNote) : Groups :=
  fold_left push_note filtered (mkGroups [] [] []).

End MainAppLists.

(** *** Sorting and grouping lemmas *)

Definition newer_first (a b : DevotionalNote) : Prop :=
  (n_createdAt b <= n_createdAt a)%Q.

Lemma newer_first_trans : Transitive newer_first.
Proof. intros a b c H1 H2; unfold newer_first in *; eapply Qle_trans; eauto. Qed.

Lemma insert_desc_perm x l : Permutation (insert_desc x l) (x :: l).
Proof.
  induction l as [|y ys IH]; simpl; [reflexivity|].
  destruct (negb _); [reflexivity|].
  rewrite IH; apply perm_swap.
Qed.

Lemma sort_desc_perm_acc l acc :
  Permutation (fold_left (fun acc x => insert_desc x acc) l acc) (l ++ acc)%list.
Proof.
  revert acc; induction l as [|x l IH]; intros acc; simpl; [reflexivity|].
  rewrite IH, insert_desc_perm; symmetry; apply Permutation_middle.
Qed.

Lemma sort_desc_perm l : Permutation (sort_desc l) l.
Proof. unfold sort_desc; rewrite sort_desc_perm_acc, app_nil_r; reflexivity. Qed.

Lemma insert_desc_hd a x l :
  HdRel newer_first a l -> newer_first a x -> HdRel newer_first a (insert_desc x l).
Proof.
  destruct l as [|y ys]; simpl; intros Hh Hax; [constructor; exact Hax|].
  destruct (negb _); constructor; [exact Hax|]. inversion Hh; assumption.
Qed.

Lemma insert_desc_sorted x l :
  Sorted newer_first l -> Sorted newer_first (insert_desc x l).
Proof.
  induction l as [|y ys IH]; simpl; intros Hs; [repeat constructor|].
  destruct (Qle_bool (n_createdAt x) (n_createdAt y)) eqn:E; simpl.
  - apply Sorted_inv in Hs as [Hs Hh].
    constructor; [apply IH, Hs|].
    apply insert_desc_hd; [exact Hh|].
    apply Qle_bool_iff in E; exact E.
  - constructor; [exact Hs|]; constructor; unfold newer_first.
    apply Qlt_le_weak, Qnot_le_lt; intros Hle.
    apply Qle_bool_iff in Hle; congruence.
Qed.

Lemma sort_desc_sorted_acc l acc :
  Sorted newer_first acc ->
  Sorted newer_first (fold_left (fun acc x => insert_desc x acc) l acc).
Proof.
  revert acc; induction l as [|x l IH]; intros acc Hs; simpl; [exact Hs|].
  apply IH, insert_desc_sorted, Hs.
Qed.

Lemma sort_desc_sorted l : Sorted newer_first (sort_desc l).
Proof. apply sort_desc_sorted_acc; constructor. Qed.

Lemma insert_desc_last x l :
  Forall (fun y => newer_first y x) l -> insert_desc x l = (l ++ [x])%list.
Proof.
  induction l as [|y ys IH]; simpl; intros Hf; [reflexivity|].
  inversion Hf as [|? ? Hy Hys]; subst.
  unfold newer_first in Hy; apply Qle_bool_iff in Hy; rewrite Hy; simpl.
  rewrite IH by exact Hys; reflexivity.
Qed.

Lemma StronglySorted_app_inv {A} (R : A -> A -> Prop) a b :
  StronglySorted R (a ++ b)%list -> forall y z, In y a -> In z b -> R y z.
Proof.
  induction a as [|x a IH]; simpl; intros Hs y z Hy Hz; [contradiction|].
  apply StronglySorted_inv in Hs as [Hs Hf].
  destruct Hy as [<-|Hy].
  - rewrite Forall_forall in Hf; apply Hf, in_or_app; right; exact Hz.
  - eapply IH; eauto.
Qed.

Lemma sort_desc_sorted_id_acc l acc :
  StronglySorted newer_first (acc ++ l)%list ->
  fold_left (fun acc x => insert_desc x acc) l acc = (acc ++ l)%list.
Proof.
  revert acc; induction l as [|x l IH]; intros acc Hs; simpl.
  - rewrite app_nil_r; reflexivity.
  - rewrite insert_desc_last.
    + rewrite IH; [rewrite <- app_assoc; reflexivity|].
      rewrite <- app_assoc; exact Hs.
    + apply Forall_forall; intros y Hy.
      eapply (StronglySorted_app_inv _ acc (x :: l)); [exact Hs | exact Hy | left; reflexivity].
Qed.

Lemma StronglySorted_filter {A} (R : A -> A -> Prop) (f : A -> bool) l :
  StronglySorted R l -> StronglySorted R (filter f l).
Proof.
  induction l as [|x l IH]; simpl; intros Hs; [constructor|].
  apply StronglySorted_inv in Hs as [Hs Hf].
  destruct (f x); [|apply IH, Hs].
  constructor; [apply IH, Hs|].
  rewrite Forall_forall in *; intros y Hy; apply filter_In in Hy as [Hy _]; auto.
Qed.

Lemma Sorted_filter_newer (f : DevotionalNote -> bool) l :
  Sorted newer_first l -> Sorted newer_first (filter f l).
Proof.
  intros Hs; apply StronglySorted_Sorted, StronglySorted_filter.
  apply Sorted_StronglySorted; [exact newer_first_trans | exact Hs].
Qed.

Section Grouping.
Variable now : Z.
Variable localMonthYear : Z -> Z * Z.

Lemma push_note_fold l g :
  fold_left (push_note now localMonthYear) l g =
  mkGroups (app (g_semana g) (filter (fun n => group_eqb (group_of now localMonthYear n) EstaSemana) l))
           (app (g_mes g) (filter (fun n => group_eqb (group_of now localMonthYear n) EsteMes) l))
           (app (g_antigos g) (filter (fun n => group_eqb (group_of now localMonthYear n) Antigos) l)).
Proof.
  revert g; induction l as [|n l IH]; intros g; simpl.
  - rewrite !app_nil_r; destruct g; reflexivity.
  - rewrite IH; unfold push_note.
    destruct (group_of now localMonthYear n); simpl; rewrite <- !app_assoc; reflexivity.
Qed.

End Grouping.

Lemma week_days a :
  (Qceiling (Qabs (inject_Z a) / inject_Z (1000 * 60 * 60 * 24)%Z) <= 7)%Z
  <-> (Z.abs a <= 604800000)%Z.
Proof.
  unfold Qceiling, Qfloor, Qabs, Qdiv, Qmult, Qinv, Qopp, inject_Z; simpl.
  rewrite Z.mul_1_r.
  pose proof (Z.abs_nonneg a).
  pose proof (Z.div_mod (- Z.abs a) 86400000 ltac:(lia)).
  pose proof (Z.mod_pos_bound (- Z.abs a) 86400000 ltac:(lia)).
  lia.
Qed.

Lemma filter_three_perm (g : DevotionalNote -> Group) l :
  Permutation
    (filter (fun n => group_eqb (g n) EstaSemana) l ++
     filter (fun n => group_eqb (g n) EsteMes) l ++
     filter (fun n => group_eqb (g n) Antigos) l)%list l.
Proof.
  induction l as [|x l IH]; simpl; [constructor|].
  destruct (g x); simpl.
  - constructor; exact IH.
  - symmetry; rewrite <- IH at 1.
    apply (Permutation_middle (filter _ l) (filter _ l ++ filter _ l)%list x).
  - symmetry; rewrite <- IH at 1.
    rewrite app_assoc, app_assoc.
    apply (Permutation_middle (filter _ l ++ filter _ l)%list (filter _ l) x).
Qed.

(** *** Properties of the note list *)
(** [filteredNotes] keeps exactly the notes that match the search query
    and the mood filter, each once, and lists them newest first (by
    [createdAt], descending). *)
Theorem filteredNotes_sorted_selection toLowerCase notes searchQuery filterMood :
  Permutation (filteredNotes toLowerCase notes searchQuery filterMood)
    (filter (fun n => matchesSearch toLowerCase n searchQuery
                      && matchesMood n filterMood) notes) /\
  Sorted newer_first (filteredNotes toLowerCase notes searchQuery filterMood).
Proof.
  split; [apply sort_desc_perm | apply sort_desc_sorted].
Qed.

(** The sort is stable: when the notes already come newest first,
    [filteredNotes] returns the matching notes in their original order
    (notes with equal [createdAt] are not reordered). *)
Theorem filteredNotes_stable toLowerCase notes searchQuery filterMood :
  Sorted newer_first notes ->
  filteredNotes toLowerCase notes searchQuery filterMood =
  filter (fun n => matchesSearch toLowerCase n searchQuery
                   && matchesMood n filterMood) notes.
Proof.
  intros Hs; unfold filteredNotes, sort_desc.
  apply (sort_desc_sorted_id_acc _ []); simpl.
  apply StronglySorted_filter, Sorted_StronglySorted;
    [exact newer_first_trans | exact Hs].
Qed.

Lemma filteredNotes_stable_witness :
  let notes := [mkNote "b" (Some "Salmo 23") None None 20 20 (Some []) None None;
                mkNote "a" (Some "Joao 3") None None 10 10 (Some []) None None;
                mkNote "c" (Some "Salmo 91") None None 10 10 (Some []) None None] in
  Sorted newer_first notes /\
  filteredNotes (fun s => s) notes "Salmo" None =
  filter (fun n => matchesSearch (fun s => s) n "Salmo" && matchesMood n None) notes.
Proof.
  assert (Hs : Sorted newer_first
    [mkNote "b" (Some "Salmo 23") None None 20 20 (Some []) None None;
     mkNote "a" (Some "Joao 3") None None 10 10 (Some []) None None;
     mkNote "c" (Some "Salmo 91") None None 10 10 (Some []) None None]).
  { repeat constructor; unfold newer_first; simpl; apply Qle_bool_iff; reflexivity. }
  exact (conj Hs (filteredNotes_stable (fun s => s) _ "Salmo" None Hs)).
Defined.

(** An empty search query with no mood filter (null or the empty string)
    keeps exactly the notes that have a title, a content or at least one
    tag (so every titled note, untitled ones included in the list or
    not), each once; only notes with none of the three are hidden. *)
Theorem empty_search_keeps_text_notes toLowerCase notes filterMood :
  toLowerCase "" = "" ->
  filterMood = None \/ filterMood = Some "" ->
  Permutation (filteredNotes toLowerCase notes "" filterMood) (filter has_text notes).
Proof.
  intros Hlow Hfm.
  unfold filteredNotes; rewrite sort_desc_perm.
  apply Permutation_refl'; apply filter_ext; intros n.
  unfold matchesSearch, opt_includes, has_text; rewrite Hlow.
  replace (matchesMood n filterMood) with true
    by (destruct Hfm as [-> | ->]; reflexivity).
  rewrite andb_true_r.
  destruct (n_title n) as [t|]; [destruct (toLowerCase t); reflexivity|].
  destruct (n_content n) as [c|]; [destruct (toLowerCase c); reflexivity|].
  destruct (n_tags n) as [[|t ts]|]; simpl; [reflexivity| |reflexivity].
  destruct (toLowerCase t); reflexivity.
Qed.

Lemma empty_search_keeps_text_notes_witness :
  let notes := [mkNote "a" None None None 10 10 None (Some "Grato") None;
                mkNote "b" (Some "Salmo 23") None None 20 20 (Some []) None None;
                mkNote "c" None None None 30 30 (Some ["paz"]) None None] in
  Permutation (filteredNotes (fun s => s) notes "" None) (filter has_text notes).
Proof.
  exact (empty_search_keeps_text_notes (fun s => s)
    [mkNote "a" None None None 10 10 None (Some "Grato") None;
     mkNote "b" (Some "Salmo 23") None None 20 20 (Some []) None None;
     mkNote "c" None None None 30 30 (Some ["paz"]) None None]
    None eq_refl (or_introl eq_refl)).
Defined.

(** [groupedNotes] puts each note in exactly one of the three groups:
    every group keeps the notes of its branch in their input order, and
    together the groups are a reordering of the input. *)
Theorem groupedNotes_partition now localMonthYear l :
  let g := groupedNotes now localMonthYear l in
  g_semana g = filter (fun n => group_eqb (group_of now localMonthYear n) EstaSemana) l /\
  g_mes g = filter (fun n => group_eqb (group_of now localMonthYear n) EsteMes) l /\
  g_antigos g = filter (fun n => group_eqb (group_of now localMonthYear n) Antigos) l /\
  Permutation (g_semana g ++ g_mes g ++ g_antigos g)%list l.
Proof.
  cbv zeta; unfold groupedNotes; rewrite push_note_fold; simpl.
  split; [reflexivity | split; [reflexivity | split; [reflexivity |]]].
  apply filter_three_perm.
Qed.

(** Grouping the filtered notes keeps each group newest first. *)
Theorem groups_newest_first toLowerCase notes searchQuery filterMood now localMonthYear :
  let g := groupedNotes now localMonthYear
             (filteredNotes toLowerCase notes searchQuery filterMood) in
  Sorted newer_first (g_semana g) /\ Sorted newer_first (g_mes g) /\
  Sorted newer_first (g_antigos g).
Proof.
  cbv zeta; unfold groupedNotes; rewrite push_note_fold; simpl.
  pose proof (sort_desc_sorted
    (filter (fun n => matchesSearch toLowerCase n searchQuery
                      && matchesMood n filterMood) notes)) as Hs.
  split; [|split]; apply Sorted_filter_newer, Hs.
Qed.

(** A note goes to 'Esta Semana' exactly when its [createdAt] is a valid
    time value at most seven days (604800000 ms) away from now, in either
    direction: a note dated up to a week in the future is also in this
    week's group, and a note whose date is out of range never is. *)
Theorem esta_semana_iff now localMonthYear n :
  group_of now localMonthYear n = EstaSemana <->
  exists t, time_clip (n_createdAt n) = Some t /\ (Z.abs (now - t) <= 604800000)%Z.
Proof.
  unfold group_of.
  destruct (time_clip (n_createdAt n)) as [t|]; cbv zeta.
  - pose proof (week_days (now - t)) as W.
    destruct (Z.leb _ 7) eqn:E.
    + apply Z.leb_le in E; split; [intros _; exists t; split; [reflexivity | apply W, E] | reflexivity].
    + apply Z.leb_gt in E; split.
      * destruct (localMonthYear t), (localMonthYear now);
          destruct (_ && _); discriminate.
      * intros (t' & Ht & Hle); injection Ht as <-; apply W in Hle; lia.
  - split; [discriminate | intros (t' & Ht & _); discriminate].
Qed.
